(** * Brinson performance attribution (13_portfolio-evaluation.ipynb)

    A shallow embedding of [brinson_decomposition] and of the data frame it
    reads, over exact rational arithmetic ([Qc], canonical rationals, so
    that equal numbers are equal terms): the statements proved on it are
    statements about the formulas in exact arithmetic.  The code itself
    computes in binary64; module [Float64] below replays the same lines on
    primitive floats, and shows on the notebook's tables which identities
    of the exact reading are lost to rounding. *)

From Stdlib Require Import QArith Qcanon Qround PrimFloat.
From stdpp Require Import gmap strings list fin_maps numbers.

Local Open Scope Qc_scope.

(** ** Segments

    One row of the attribution table.  The notebook keeps the rows as four
    parallel columns of a data frame indexed by the asset class; the record
    is the row view of the same data. *)

Record SegmentRecord := mkSegment {
  segment_id : string;
  w_p : Qc;
  r_p : Qc;
  w_b : Qc;
  r_b : Qc
}.

(** ** Series

    The part of a pandas Series the code uses: the values of one column, in
    index order.  All series met by [brinson_decomposition] are columns of
    one frame or results of arithmetic on them, so they carry the very same
    index and pandas combines them position by position.  The cells are
    exact rationals here: no operation rounds and no cell is NaN.  The
    rounding operations are those of [Float64.Series]. *)

Module Series.

Definition t := list Qc.

(** [a - b] *)
Definition sub (a b : t) : t := zip_with Qcminus a b.

(** [a * b] *)
Definition mul (a b : t) : t := zip_with Qcmult a b.

(** [a.sum()]: the values are added from the left, starting at 0, which is
    also the sum of the empty series.  (Rationals have no NaN to skip.) *)
Definition sum (a : t) : Qc := fold_left Qcplus a 0.

End Series.

(** ** Data frames and the errors of subscripting *)

Inductive exn :=
| KeyError (k : string).

#[global] Instance exn_ret : MRet (sum exn) := λ _ x, inr x.
#[global] Instance exn_bind : MBind (sum exn) := λ _ _ f m,
  match m with
  | inl e => inl e
  | inr x => f x
  end.
#[global] Instance exn_fmap : FMap (sum exn) := λ _ _ f m,
  match m with
  | inl e => inl e
  | inr x => inr (f x)
  end.

Record DataFrame := mkDataFrame {
  index : list string;
  columns : gmap string (list Qc)
}.

(** Every column is as long as the index. *)
Definition well_formed (df : DataFrame) : Prop :=
  map_Forall (λ _ c, length c = length (index df)) (columns df).

(** [df[k]] raises [KeyError] when the frame has no column [k]. *)
Definition getitem (df : DataFrame) (k : string) : exn + Series.t :=
  match columns df !! k with
  | Some c => inr c
  | None => inl (KeyError k)
  end.

(** Arithmetic on series expressions: the left operand is evaluated first,
    as Python does, so the first missing column is the one reported. *)
Definition sub_ (ea eb : exn + Series.t) : exn + Series.t :=
  a ← ea; b ← eb; mret (Series.sub a b).

Definition mul_ (ea eb : exn + Series.t) : exn + Series.t :=
  a ← ea; b ← eb; mret (Series.mul a b).

Definition sum_ (ea : exn + Series.t) : exn + Qc :=
  Series.sum <$> ea.

Declare Scope frame_scope.
Delimit Scope frame_scope with frame.
Notation "df .[ k ]" := (getitem df k)
  (at level 1, format "df .[ k ]") : frame_scope.
Infix "-" := sub_ : frame_scope.
Infix "*" := mul_ : frame_scope.

(** ** The result

    The dictionary returned by [brinson_decomposition] always has the same
    six keys; as a record: 'Portfolio Return', 'Benchmark Return',
    'Asset Allocation', 'Selection', 'Interaction', 'Total Difference'. *)

Record AttributionResult := mkResult {
  portfolio_return : Qc;
  benchmark_return : Qc;
  asset_allocation : Qc;
  selection : Qc;
  interaction : Qc;
  total_difference : Qc
}.

(** ** brinson_decomposition *)

Definition brinson_decomposition (df : DataFrame) : exn + AttributionResult :=
  (* Total portfolio and benchmark returns *)
  r_p ← sum_ (df.["w_p"] * df.["r_p"])%frame;
  r_b ← sum_ (df.["w_b"] * df.["r_b"])%frame;
  (* Decomposition components *)
  asset_allocation ← sum_ ((df.["w_p"] - df.["w_b"]) * df.["r_b"])%frame;
  selection ← sum_ (df.["w_b"] * (df.["r_p"] - df.["r_b"]))%frame;
  interaction ←
    sum_ ((df.["w_p"] - df.["w_b"]) * (df.["r_p"] - df.["r_b"]))%frame;
  (* Total difference in returns *)
  let total_diff := r_p - r_b in
  mret {| portfolio_return := r_p;
          benchmark_return := r_b;
          asset_allocation := asset_allocation;
          selection := selection;
          interaction := interaction;
          total_difference := total_diff |}.

(** The frame the notebook builds from its table:
    [pd.DataFrame(data).set_index('AssetClass')]. *)
Definition frame_of (segs : list SegmentRecord) : DataFrame :=
  {| index := segment_id <$> segs;
     columns :=
       <["w_p" := w_p <$> segs]>
         (<["r_p" := r_p <$> segs]>
            (<["w_b" := w_b <$> segs]>
               (<["r_b" := r_b <$> segs]> ∅))) |}.

(** The attribution of a sequence of segments, as the notebook runs it. *)
Definition decompose (segs : list SegmentRecord) : exn + AttributionResult :=
  brinson_decomposition (frame_of segs).

(** The reference table of the notebook. *)
Definition dec (n : Z) (d : positive) : Qc := Q2Qc (n # d).

Definition df_brinson_rows : list SegmentRecord :=
  [ mkSegment "Equity" (dec 60 100) (dec 10 100) (dec 50 100) (dec 8 100);
    mkSegment "Bond" (dec 30 100) (dec 2 100) (dec 40 100) (dec 3 100);
    mkSegment "RealEstate" (dec 10 100) (dec 8 100) (dec 10 100) (dec 7 100) ].

(** ** The formulas of the specification

    [Sigma f segs] is the sum of [f] over the segments, and
    [spec_decompose] the six quantities as the specification writes them. *)

Fixpoint Sigma (f : SegmentRecord → Qc) (segs : list SegmentRecord) : Qc :=
  match segs with
  | [] => 0
  | s :: segs' => f s + Sigma f segs'
  end.

Definition spec_decompose (segs : list SegmentRecord) : AttributionResult :=
  let spec_portfolio_return := Sigma (λ s, w_p s * r_p s) segs in
  let spec_benchmark_return := Sigma (λ s, w_b s * r_b s) segs in
  {| portfolio_return := spec_portfolio_return;
     benchmark_return := spec_benchmark_return;
     asset_allocation := Sigma (λ s, (w_p s - w_b s) * r_b s) segs;
     selection := Sigma (λ s, w_b s * (r_p s - r_b s)) segs;
     interaction := Sigma (λ s, (w_p s - w_b s) * (r_p s - r_b s)) segs;
     total_difference := spec_portfolio_return - spec_benchmark_return |}.

(** Exchanging the roles of portfolio and benchmark in one segment. *)
Definition swap_roles (s : SegmentRecord) : SegmentRecord :=
  {| segment_id := segment_id s;
     w_p := w_b s; r_p := r_b s;
     w_b := w_p s; r_b := r_p s |}.

(** A value in thousandths, rounded half up: the three decimals to which
    the specification quotes the reference results. *)
Definition round3 (x : Qc) : Z := Qfloor (x * dec 1000 1 + dec 1 2).

(** ** Tables used as concrete inputs *)

(** Two segments, overweight where the portfolio also did better. *)
Definition two_segments : list SegmentRecord :=
  [ mkSegment "Equity" (dec 6 10) (dec 10 100) (dec 5 10) (dec 8 100);
    mkSegment "Bond" (dec 4 10) (dec 2 100) (dec 5 10) (dec 3 100) ].

(** A portfolio that holds the benchmark. *)
Definition index_tracker : list SegmentRecord :=
  [ mkSegment "Equity" (dec 1 2) (dec 10 100) (dec 1 2) (dec 10 100);
    mkSegment "Bond" (dec 1 2) (dec 3 100) (dec 1 2) (dec 3 100) ].

(** Benchmark weights, different returns inside the segments. *)
Definition stock_picker : list SegmentRecord :=
  [ mkSegment "Equity" (dec 1 2) (dec 10 100) (dec 1 2) (dec 8 100);
    mkSegment "Bond" (dec 1 2) (dec 2 100) (dec 1 2) (dec 3 100) ].

(** Weights outside [0,1] that do not sum to 1. *)
Definition leveraged : list SegmentRecord :=
  [ mkSegment "Equity" (dec 3 2) (dec 10 100) (dec 1 2) (dec 8 100);
    mkSegment "Cash" (dec (-1) 4) (dec 1 100) (dec 1 4) (dec 1 100) ].

(** ** Transformations of a table *)

(** The columns [brinson_decomposition] subscripts, in the order in which it
    first reads them. *)
Definition required_columns : list string := ["w_p"; "r_p"; "w_b"; "r_b"].

(** Every return of the segment multiplied by [c] (a change of unit, such as
    fractions to percent). *)
Definition scale_returns (c : Qc) (s : SegmentRecord) : SegmentRecord :=
  {| segment_id := segment_id s;
     w_p := w_p s; r_p := c * r_p s;
     w_b := w_b s; r_b := c * r_b s |}.

(** Every return of the segment lowered by [c] (returns in excess of a
    constant rate, as the notebook takes them elsewhere). *)
Definition excess_returns (c : Qc) (s : SegmentRecord) : SegmentRecord :=
  {| segment_id := segment_id s;
     w_p := w_p s; r_p := r_p s - c;
     w_b := w_b s; r_b := r_b s - c |}.

(** A segment held by neither the portfolio nor the benchmark. *)
Definition unheld (s : SegmentRecord) : Prop := w_p s = 0 ∧ w_b s = 0.

#[global] Instance unheld_dec (s : SegmentRecord) : Decision (unheld s).
Proof. unfold unheld. apply _. Defined.

(** The reference frame with another index and one more column. *)
Definition df_brinson_annotated : DataFrame :=
  {| index := ["EQ"; "FI"; "RE"];
     columns :=
       <["fee" := [dec 1 100; dec 1 200; dec 2 100]]>
         (columns (frame_of df_brinson_rows)) |}.

(** ** The rolling regression (section "Rolling metrics over time")

    The loop that regresses the portfolio on the market over each one-year
    window and dates the estimates.  A series is kept with its index, as
    rows (label, value).  The regression itself belongs to statsmodels: the
    lines [sm.add_constant], [sm.OLS(...).fit()] and the two subscripts of
    [model.params] are one function [fit] of the two windows, which returns
    the pair (const, slope) or raises. *)

Module Rolling.

Inductive failure (E : Type) :=
| Raised (e : E)
| ValueError.
Arguments Raised {E} e.
Arguments ValueError {E}.

Section Loop.

Context {L E : Type}.

Variable fit : list (L * Qc) → list (L * Qc) → E + (Qc * Qc).

(** [window = 252] in the notebook. *)
Variable window : nat.

Variables excess_portfolio excess_market : list (L * Qc).

(** [s.iloc[start_idx:end_idx]] *)
Definition iloc (s : list (L * Qc)) (start_idx end_idx : nat)
  : list (L * Qc) :=
  take (end_idx - start_idx)%nat (drop start_idx s).

(** The regression of one pass of the loop. *)
Definition model (start_idx : nat) : E + (Qc * Qc) :=
  let end_idx := (start_idx + window)%nat in
  let y_window := iloc excess_portfolio start_idx end_idx in
  let x_window := iloc excess_market start_idx end_idx in
  fit y_window x_window.

(** One pass: the two lists grow by one estimate each. *)
Definition body (st : list Qc * list Qc) (start_idx : nat)
  : E + (list Qc * list Qc) :=
  let '(rolling_betas, rolling_alphas) := st in
  match model start_idx with
  | inl e => inl e
  | inr (const, slope) =>
    inr (rolling_betas ++ [slope], rolling_alphas ++ [const])
  end.

(** [for start_idx in idxs: body] *)
Fixpoint for_each (idxs : list nat) (st : list Qc * list Qc)
  : E + (list Qc * list Qc) :=
  match idxs with
  | [] => inr st
  | start_idx :: idxs' =>
    match body st start_idx with
    | inl e => inl e
    | inr st' => for_each idxs' st'
    end
  end.

(** [pd.Series(data, index=idx)] refuses data and index of different
    lengths. *)
Definition pd_Series (data : list Qc) (idx : list L)
  : failure E + list (L * Qc) :=
  if decide (length data = length idx) then inr (zip idx data)
  else inl ValueError.

(** The cell: the series of alphas and the series of betas. *)
Definition rolling : failure E + (list (L * Qc) * list (L * Qc)) :=
  match
    for_each (seq 0 (length excess_portfolio - window)%nat) ([], [])
  with
  | inl e => inl (Raised e)
  | inr (rolling_betas, rolling_alphas) =>
    match pd_Series rolling_alphas (drop window excess_portfolio.*1) with
    | inl e => inl e
    | inr rolling_alphas_series =>
      match pd_Series rolling_betas (drop window excess_portfolio.*1) with
      | inl e => inl e
      | inr rolling_betas_series =>
        inr (rolling_alphas_series, rolling_betas_series)
      end
    end
  end.

End Loop.

(** A regression to run the loop on: exact least squares on one regressor,
    undefined when the regressor does not vary. *)
Definition mean (s : list Qc) : Qc :=
  Series.sum s / Q2Qc (inject_Z (Z.of_nat (length s))).

Definition least_squares (y_window x_window : list (string * Qc))
  : unit + (Qc * Qc) :=
  let ys := y_window.*2 in
  let xs := x_window.*2 in
  let dx := (λ x, x - mean xs) <$> xs in
  let dy := (λ y, y - mean ys) <$> ys in
  let sxx := Series.sum (Series.mul dx dx) in
  let sxy := Series.sum (Series.mul dx dy) in
  if decide (sxx = 0) then inl ()
  else inr (mean ys - sxy / sxx * mean xs, sxy / sxx).

Definition portfolio_5d : list (string * Qc) :=
  [ ("d1", dec 1 100); ("d2", dec 3 100); ("d3", dec (-1) 100);
    ("d4", dec 2 100); ("d5", dec 4 100) ].

Definition market_5d : list (string * Qc) :=
  [ ("d1", dec 1 100); ("d2", dec 2 100); ("d3", dec (-1) 100);
    ("d4", dec 1 100); ("d5", dec 3 100) ].

End Rolling.

(** ** The same lines in binary64

    [brinson_decomposition] once more, on 64-bit floats as pandas holds
    them.  Every product, difference and addition rounds; [sum] skips NaN
    cells. *)

Set Warnings "-inexact-float".

Module Float64.

Record SegmentRecord := mkSegment {
  segment_id : string;
  w_p : float;
  r_p : float;
  w_b : float;
  r_b : float
}.

Inductive exn :=
| KeyError (k : string)
| LongColumn.

Module Series.

Definition t := list float.

(** [a - b] *)
Definition sub (a b : t) : t := zip_with PrimFloat.sub a b.

(** [a * b] *)
Definition mul (a b : t) : t := zip_with PrimFloat.mul a b.

(** [a.sum()]: NaN cells count for 0 and the cells are added from the
    left, starting at 0.0.  This is the order of the addition for columns
    of fewer than 8 cells; longer columns may be added blockwise, and the
    replay leaves them out. *)
Definition sum (a : t) : option float :=
  if decide (length a < 8)%nat then
    Some (fold_left
            (λ acc x, PrimFloat.add acc (if PrimFloat.is_nan x then 0%float
                                         else x))
            a 0%float)
  else None.

End Series.

#[global] Instance exn_ret : MRet (sum exn) := λ _ x, inr x.
#[global] Instance exn_bind : MBind (sum exn) := λ _ _ f m,
  match m with
  | inl e => inl e
  | inr x => f x
  end.

Record DataFrame := mkDataFrame {
  index : list string;
  columns : gmap string (list float)
}.

Definition getitem (df : DataFrame) (k : string) : exn + Series.t :=
  match columns df !! k with
  | Some c => inr c
  | None => inl (KeyError k)
  end.

Definition sub_ (ea eb : exn + Series.t) : exn + Series.t :=
  a ← ea; b ← eb; mret (Series.sub a b).

Definition mul_ (ea eb : exn + Series.t) : exn + Series.t :=
  a ← ea; b ← eb; mret (Series.mul a b).

(** [LongColumn] is no exception of the code: it marks a column that the
    replay does not add up. *)
Definition sum_ (ea : exn + Series.t) : exn + float :=
  a ← ea;
  match Series.sum a with
  | Some x => inr x
  | None => inl LongColumn
  end.

Record AttributionResult := mkResult {
  portfolio_return : float;
  benchmark_return : float;
  asset_allocation : float;
  selection : float;
  interaction : float;
  total_difference : float
}.

Definition brinson_decomposition (df : DataFrame) : exn + AttributionResult :=
  (* Total portfolio and benchmark returns *)
  r_p ← sum_ (mul_ (getitem df "w_p") (getitem df "r_p"));
  r_b ← sum_ (mul_ (getitem df "w_b") (getitem df "r_b"));
  (* Decomposition components *)
  asset_allocation ←
    sum_ (mul_ (sub_ (getitem df "w_p") (getitem df "w_b"))
               (getitem df "r_b"));
  selection ←
    sum_ (mul_ (getitem df "w_b")
               (sub_ (getitem df "r_p") (getitem df "r_b")));
  interaction ←
    sum_ (mul_ (sub_ (getitem df "w_p") (getitem df "w_b"))
               (sub_ (getitem df "r_p") (getitem df "r_b")));
  (* Total difference in returns *)
  let total_diff := PrimFloat.sub r_p r_b in
  mret {| portfolio_return := r_p;
          benchmark_return := r_b;
          asset_allocation := asset_allocation;
          selection := selection;
          interaction := interaction;
          total_difference := total_diff |}.

Definition frame_of (segs : list SegmentRecord) : DataFrame :=
  {| index := segment_id <$> segs;
     columns :=
       <["w_p" := w_p <$> segs]>
         (<["r_p" := r_p <$> segs]>
            (<["w_b" := w_b <$> segs]>
               (<["r_b" := r_b <$> segs]> ∅))) |}.

Definition decompose (segs : list SegmentRecord) : exn + AttributionResult :=
  brinson_decomposition (frame_of segs).

(** The reference table of the notebook, with its literals. *)
Definition df_brinson_rows : list SegmentRecord :=
  [ mkSegment "Equity" 0.60 0.10 0.50 0.08;
    mkSegment "Bond" 0.30 0.02 0.40 0.03;
    mkSegment "RealEstate" 0.10 0.08 0.10 0.07 ].

(** Benchmark weights, different returns inside the segments. *)
Definition stock_picker : list SegmentRecord :=
  [ mkSegment "Equity" 0.5 0.10 0.5 0.08;
    mkSegment "Bond" 0.5 0.02 0.5 0.03 ].

End Float64.

(** Benchmark returns in every segment, different weights. *)
Definition allocator : list SegmentRecord :=
  [ mkSegment "Equity" (dec 6 10) (dec 10 100) (dec 5 10) (dec 10 100);
    mkSegment "Bond" (dec 4 10) (dec 3 100) (dec 5 10) (dec 3 100) ].

(** * Properties *)

Section SeriesFacts.

Implicit Types (f g : SegmentRecord → Qc) (segs : list SegmentRecord).

Lemma fold_left_Qcplus (a : Series.t) (x : Qc) :
  fold_left Qcplus a x = x + Series.sum a.
Proof.
  unfold Series.sum. revert x.
  induction a as [|y a IH]; intros x; simpl.
  - ring.
  - rewrite (IH (x + y)), (IH (0 + y)). ring.
Qed.

Lemma sum_cons (y : Qc) (a : Series.t) :
  Series.sum (y :: a) = y + Series.sum a.
Proof.
  unfold Series.sum at 1. simpl. rewrite fold_left_Qcplus. ring.
Qed.

Lemma sum_fmap f segs : Series.sum (f <$> segs) = Sigma f segs.
Proof.
  induction segs as [|s segs IH]; [done|].
  rewrite fmap_cons, sum_cons, IH. done.
Qed.

Lemma sub_fmap f g segs :
  Series.sub (f <$> segs) (g <$> segs) = (λ s, f s - g s) <$> segs.
Proof.
unfold Series.sub.
induction segs as [|s segs IH]; [done|].
rewrite !fmap_cons. simpl. by rewrite IH.
Qed.

Lemma mul_fmap f g segs :
  Series.mul (f <$> segs) (g <$> segs) = (λ s, f s * g s) <$> segs.
Proof.
unfold Series.mul.
induction segs as [|s segs IH]; [done|].
rewrite !fmap_cons. simpl. by rewrite IH.
Qed.

Lemma Sigma_ext f g segs :
  Forall (λ s, f s = g s) segs → Sigma f segs = Sigma g segs.
Proof. induction 1; simpl; congruence. Qed.

Lemma Sigma_zero segs : Sigma (λ _, 0) segs = 0.
Proof. induction segs as [|s segs IH]; simpl; [done|]. rewrite IH. ring. Qed.

Lemma Sigma_plus f g segs :
  Sigma (λ s, f s + g s) segs = Sigma f segs + Sigma g segs.
Proof. induction segs as [|s segs IH]; simpl; [|rewrite IH]; ring. Qed.

Lemma Sigma_opp f segs : Sigma (λ s, - f s) segs = - Sigma f segs.
Proof. induction segs as [|s segs IH]; simpl; [|rewrite IH]; ring. Qed.

Lemma Sigma_fmap f (h : SegmentRecord → SegmentRecord) segs :
  Sigma f (h <$> segs) = Sigma (f ∘ h) segs.
Proof.
induction segs as [|s segs IH]; [done|].
rewrite fmap_cons. simpl. by rewrite IH.
Qed.

Lemma Sigma_Permutation f segs segs' :
  segs ≡ₚ segs' → Sigma f segs = Sigma f segs'.
Proof.
  induction 1 as [|s l l' _ IH|s t l|l l' l'' _ IH1 _ IH2]; simpl.
  - done.
  - by rewrite IH.
  - ring.
  - by rewrite IH1.
Qed.

End SeriesFacts.

Section FrameFacts.

Implicit Types (segs : list SegmentRecord).

Lemma frame_of_well_formed segs : well_formed (frame_of segs).
Proof.
  unfold well_formed, frame_of; simpl.
  repeat (apply map_Forall_insert_2; [by rewrite !length_fmap|]).
  apply map_Forall_empty.
Qed.

Lemma getitem_w_p segs : getitem (frame_of segs) "w_p" = inr (w_p <$> segs).
Proof. unfold getitem, frame_of; simpl. by simplify_map_eq. Qed.

Lemma getitem_r_p segs : getitem (frame_of segs) "r_p" = inr (r_p <$> segs).
Proof. unfold getitem, frame_of; simpl. by simplify_map_eq. Qed.

Lemma getitem_w_b segs : getitem (frame_of segs) "w_b" = inr (w_b <$> segs).
Proof. unfold getitem, frame_of; simpl. by simplify_map_eq. Qed.

Lemma getitem_r_b segs : getitem (frame_of segs) "r_b" = inr (r_b <$> segs).
Proof. unfold getitem, frame_of; simpl. by simplify_map_eq. Qed.

(** On the frame of a table the code computes the sums of the
    specification, whatever the table. *)
Lemma decompose_eq segs : decompose segs = inr (spec_decompose segs).
Proof.
  unfold decompose, brinson_decomposition, sum_, sub_, mul_.
  rewrite !getitem_w_p, !getitem_r_p, !getitem_w_b, !getitem_r_b.
  simpl. rewrite !sub_fmap, !mul_fmap, !sum_fmap. done.
Qed.

End FrameFacts.


(** Without its columns the frame cannot be subscripted: the first
    expression evaluated, [df['w_p']], raises. *)
Example brinson_decomposition_no_columns :
  brinson_decomposition (mkDataFrame [] ∅) = inl (KeyError "w_p").
Proof. reflexivity. Qed.

Example brinson_decomposition_missing_r_b :
  brinson_decomposition
    (mkDataFrame ["a"] (<["w_p" := [1]]> (<["r_p" := [1]]> (<["w_b" := [1]]> ∅))))
  = inl (KeyError "r_b").
Proof. reflexivity. Qed.

(** ** Algebra of the specification's sums *)

Section SigmaAlgebra.

Implicit Types (f g : SegmentRecord → Qc) (segs : list SegmentRecord).

Lemma Sigma_ext_all f g segs :
  (∀ s, f s = g s) → Sigma f segs = Sigma g segs.
Proof. intros Hfg. apply Sigma_ext, Forall_forall. auto. Qed.

Lemma Sigma_minus f g segs :
  Sigma (λ s, f s - g s) segs = Sigma f segs - Sigma g segs.
Proof. induction segs as [|s segs IH]; simpl; [|rewrite IH]; ring. Qed.

Lemma Sigma_null f segs :
  Forall (λ s, f s = 0) segs → Sigma f segs = 0.
Proof.
intros Hf. rewrite <- (Sigma_zero segs). by apply Sigma_ext.
Qed.

End SigmaAlgebra.

(** Both sides are brought under one sum and compared segment by segment. *)
Ltac Sigma_pointwise :=
  rewrite <- ?Sigma_opp, <- ?Sigma_plus, <- ?Sigma_minus;
  rewrite <- ?Sigma_opp, <- ?Sigma_plus, <- ?Sigma_minus;
  apply Sigma_ext_all; intros ?; simpl; ring.

Section SpecFacts.

Implicit Types (segs : list SegmentRecord).

Lemma spec_additivity segs :
  let r := spec_decompose segs in
  asset_allocation r + selection r + interaction r = total_difference r.
Proof. simpl. Sigma_pointwise. Qed.

Lemma spec_Permutation segs segs' :
  segs ≡ₚ segs' → spec_decompose segs = spec_decompose segs'.
Proof.
intros Hp. unfold spec_decompose.
by rewrite !(Sigma_Permutation _ segs segs' Hp).
Qed.

Lemma spec_swap_roles segs :
  let r := spec_decompose segs in
  let r' := spec_decompose (swap_roles <$> segs) in
  total_difference r' = - total_difference r
  ∧ interaction r' = interaction r
  ∧ asset_allocation r' = - (asset_allocation r + interaction r)
  ∧ selection r' = - (selection r + interaction r).
Proof.
simpl. rewrite !Sigma_fmap. unfold compose.
repeat split; Sigma_pointwise.
Qed.

Lemma spec_equal_weights segs :
  Forall (λ s, w_p s = w_b s) segs →
  let r := spec_decompose segs in
  asset_allocation r = 0 ∧ interaction r = 0
  ∧ selection r = total_difference r.
Proof.
intros Hw. simpl. repeat split.
- apply Sigma_null. eapply Forall_impl; [|exact Hw].
  intros s Hs; simpl in *. rewrite Hs. ring.
- apply Sigma_null. eapply Forall_impl; [|exact Hw].
  intros s Hs; simpl in *. rewrite Hs. ring.
- rewrite <- Sigma_minus. apply Sigma_ext.
  eapply Forall_impl; [|exact Hw].
  intros s Hs; simpl in *. rewrite Hs. ring.
Qed.

Lemma spec_no_difference segs :
  Forall (λ s, w_p s = w_b s ∧ r_p s = r_b s) segs →
  let r := spec_decompose segs in
  asset_allocation r = 0 ∧ selection r = 0 ∧ interaction r = 0
  ∧ total_difference r = 0.
Proof.
intros Hs.
assert (Forall (λ s, w_p s = w_b s) segs) as Hw.
{ eapply Forall_impl; [|exact Hs]. by intros s [? _]. }
destruct (spec_equal_weights segs Hw) as (Ha & Hi & Hsel).
simpl in *. rewrite Ha, Hi, <- Hsel.
assert (Sigma (λ s, w_b s * (r_p s - r_b s)) segs = 0) as ->; [|done].
apply Sigma_null. eapply Forall_impl; [|exact Hs].
intros s [_ Hr]; simpl in *. rewrite Hr. ring.
Qed.

End SpecFacts.

(** Equality of two closed rationals, decided on their numerators and
    denominators. *)
Ltac Qc_compute := apply Qc_is_canon; vm_compute; reflexivity.

Lemma AttributionResult_eq (p p' b b' a a' s s' i i' t t' : Qc) :
  p = p' → b = b' → a = a' → s = s' → i = i' → t = t' →
  mkResult p b a s i t = mkResult p' b' a' s' i' t'.
Proof. by intros -> -> -> -> -> ->. Qed.

Example decompose_leveraged :
  decompose leveraged
  = inr (mkResult (dec 295 2000) (dec 85 2000) (dec 75 1000) (dec 1 100)
                  (dec 2 100) (dec 105 1000)).
Proof.
vm_compute. apply (f_equal inr), AttributionResult_eq; Qc_compute.
Qed.

(** ** The claims *)

(** C1: for every non-empty sequence of segments the decomposition returned
    by [decompose] satisfies
    asset_allocation + selection + interaction = total_difference,
    exactly, in rational arithmetic. *)
Theorem decompose_additivity (segs : list SegmentRecord) :
  segs ≠ [] →
  ∃ r, decompose segs = inr r
       ∧ asset_allocation r + selection r + interaction r
         = total_difference r.
Proof.
intros _. exists (spec_decompose segs). split.
- apply decompose_eq.
- apply spec_additivity.
Qed.

Lemma decompose_additivity_witness :
  df_brinson_rows ≠ []
  ∧ ∃ r, decompose df_brinson_rows = inr r
         ∧ asset_allocation r + selection r + interaction r
           = total_difference r.
Proof.
split; [discriminate | apply (decompose_additivity df_brinson_rows); discriminate].
Defined.

(** C2: for every non-empty sequence of segments [decompose] returns exactly
    the six quantities of the specification's summation formulas:
    portfolio_return = Σ w_p*r_p, benchmark_return = Σ w_b*r_b,
    asset_allocation = Σ (w_p - w_b)*r_b, selection = Σ w_b*(r_p - r_b),
    interaction = Σ (w_p - w_b)*(r_p - r_b) and
    total_difference = portfolio_return - benchmark_return. *)
Theorem decompose_formulas (segs : list SegmentRecord) :
  segs ≠ [] →
  ∃ r, decompose segs = inr r
       ∧ portfolio_return r = Sigma (λ s, w_p s * r_p s) segs
       ∧ benchmark_return r = Sigma (λ s, w_b s * r_b s) segs
       ∧ asset_allocation r = Sigma (λ s, (w_p s - w_b s) * r_b s) segs
       ∧ selection r = Sigma (λ s, w_b s * (r_p s - r_b s)) segs
       ∧ interaction r
         = Sigma (λ s, (w_p s - w_b s) * (r_p s - r_b s)) segs
       ∧ total_difference r = portfolio_return r - benchmark_return r.
Proof.
intros _. exists (spec_decompose segs). split.
- apply decompose_eq.
- by repeat split.
Qed.

Lemma decompose_formulas_witness :
  two_segments ≠ []
  ∧ ∃ r, decompose two_segments = inr r
       ∧ portfolio_return r = Sigma (λ s, w_p s * r_p s) two_segments
       ∧ benchmark_return r = Sigma (λ s, w_b s * r_b s) two_segments
       ∧ asset_allocation r
         = Sigma (λ s, (w_p s - w_b s) * r_b s) two_segments
       ∧ selection r = Sigma (λ s, w_b s * (r_p s - r_b s)) two_segments
       ∧ interaction r
         = Sigma (λ s, (w_p s - w_b s) * (r_p s - r_b s)) two_segments
       ∧ total_difference r = portfolio_return r - benchmark_return r.
Proof.
split; [discriminate | apply (decompose_formulas two_segments); discriminate].
Defined.

(** C3, as the specification states it: on the reference table the six
    results, rounded to three decimals, would be 0.074, 0.059, 0.006,
    0.008, 0.001 and 0.015.  The code does not produce these: the
    asset allocation is 0.005. *)
Lemma reference_scenario_quoted_values_fail :
  ¬ ∃ r, decompose df_brinson_rows = inr r
         ∧ round3 (portfolio_return r) = 74%Z
         ∧ round3 (benchmark_return r) = 59%Z
         ∧ round3 (asset_allocation r) = 6%Z
         ∧ round3 (selection r) = 8%Z
         ∧ round3 (interaction r) = 1%Z
         ∧ round3 (total_difference r) = 15%Z.
Proof.
intros (r & Hr & _ & _ & Haa & _).
vm_compute in Hr. injection Hr as <-.
vm_compute in Haa. discriminate.
Qed.

(** C3, amended: on the reference table [decompose] yields
    portfolio_return = 0.074, benchmark_return = 0.059,
    asset_allocation = 0.005, selection = 0.007, interaction = 0.003 and
    total_difference = 0.015, exactly. *)
Theorem reference_scenario :
  decompose df_brinson_rows
  = inr {| portfolio_return := dec 74 1000;
           benchmark_return := dec 59 1000;
           asset_allocation := dec 5 1000;
           selection := dec 7 1000;
           interaction := dec 3 1000;
           total_difference := dec 15 1000 |}.
Proof.
vm_compute. apply (f_equal inr), AttributionResult_eq; Qc_compute.
Qed.

(** C4, as the specification states it: [decompose] would fail exactly on
    the empty sequence.  It does not fail there. *)
Lemma empty_input_is_not_rejected :
  ¬ ((∃ e, decompose [] = inl e) ↔ @nil SegmentRecord = []).
Proof.
intros H. destruct (proj2 H eq_refl) as [e He].
vm_compute in He. discriminate.
Qed.

(** C4, amended: [decompose] never fails; for every sequence of segments,
    empty or not, whatever the weights, it validates nothing and returns
    the result computed from the segments as given: the six sums of the
    formulas. *)
Theorem decompose_total (segs : list SegmentRecord) :
  (∃ r, decompose segs = inr r
        ∧ portfolio_return r = Sigma (λ s, w_p s * r_p s) segs
        ∧ benchmark_return r = Sigma (λ s, w_b s * r_b s) segs
        ∧ asset_allocation r = Sigma (λ s, (w_p s - w_b s) * r_b s) segs
        ∧ selection r = Sigma (λ s, w_b s * (r_p s - r_b s)) segs
        ∧ interaction r
          = Sigma (λ s, (w_p s - w_b s) * (r_p s - r_b s)) segs
        ∧ total_difference r = portfolio_return r - benchmark_return r)
  ∧ ¬ (∃ e, decompose segs = inl e).
Proof.
rewrite decompose_eq. split.
- exists (spec_decompose segs). by repeat split.
- by intros [e He].
Qed.

(** C5, as the specification states it: exchanging portfolio and benchmark
    would negate total_difference, asset_allocation and selection and keep
    interaction.  On [two_segments] the asset allocation goes from 0.005 to
    -0.008. *)
Lemma swap_does_not_negate_allocation :
  ¬ ∃ r r', decompose two_segments = inr r
            ∧ decompose (swap_roles <$> two_segments) = inr r'
            ∧ total_difference r' = - total_difference r
            ∧ asset_allocation r' = - asset_allocation r
            ∧ selection r' = - selection r
            ∧ interaction r' = interaction r.
Proof.
intros (r & r' & Hr & Hr' & _ & Haa & _).
vm_compute in Hr. injection Hr as <-.
vm_compute in Hr'. injection Hr' as <-.
apply (f_equal this) in Haa. vm_compute in Haa. discriminate.
Qed.

(** C5, amended: for every non-empty sequence of segments, exchanging w_p
    with w_b and r_p with r_b in every segment negates total_difference and
    leaves interaction unchanged; asset_allocation and selection are not
    negated: in exact arithmetic asset_allocation becomes
    -(asset_allocation + interaction) and selection becomes
    -(selection + interaction). *)
Theorem decompose_swap_roles (segs : list SegmentRecord) :
  segs ≠ [] →
  ∃ r r', decompose segs = inr r
          ∧ decompose (swap_roles <$> segs) = inr r'
          ∧ total_difference r' = - total_difference r
          ∧ interaction r' = interaction r
          ∧ asset_allocation r' = - (asset_allocation r + interaction r)
          ∧ selection r' = - (selection r + interaction r).
Proof.
intros _.
exists (spec_decompose segs), (spec_decompose (swap_roles <$> segs)).
split; [apply decompose_eq|]. split; [apply decompose_eq|].
apply spec_swap_roles.
Qed.

Lemma decompose_swap_roles_witness :
  two_segments ≠ []
  ∧ ∃ r r', decompose two_segments = inr r
          ∧ decompose (swap_roles <$> two_segments) = inr r'
          ∧ total_difference r' = - total_difference r
          ∧ interaction r' = interaction r
          ∧ asset_allocation r' = - (asset_allocation r + interaction r)
          ∧ selection r' = - (selection r + interaction r).
Proof.
split; [discriminate | apply (decompose_swap_roles two_segments); discriminate].
Defined.

(** C6: for every single-segment input with w_p = w_b = 1 and arbitrary
    returns r_p and r_b, [decompose] yields asset_allocation = 0,
    interaction = 0 and selection = r_p - r_b. *)
Theorem decompose_single_segment (id : string) (rp rb : Qc) :
  ∃ r, decompose [mkSegment id 1 rp 1 rb] = inr r
       ∧ asset_allocation r = 0
       ∧ interaction r = 0
       ∧ selection r = rp - rb.
Proof.
eexists. split; [apply decompose_eq|].
simpl. repeat split; ring.
Qed.

(** C7: for every non-empty sequence of segments in which every segment has
    w_p = w_b and r_p = r_b, [decompose] yields asset_allocation = 0,
    selection = 0, interaction = 0 and total_difference = 0. *)
Theorem decompose_no_difference (segs : list SegmentRecord) :
  segs ≠ [] →
  Forall (λ s, w_p s = w_b s ∧ r_p s = r_b s) segs →
  ∃ r, decompose segs = inr r
       ∧ asset_allocation r = 0
       ∧ selection r = 0
       ∧ interaction r = 0
       ∧ total_difference r = 0.
Proof.
intros _ Hsame. exists (spec_decompose segs). split.
- apply decompose_eq.
- by apply spec_no_difference.
Qed.

Lemma decompose_no_difference_witness :
  index_tracker ≠ []
  ∧ Forall (λ s, w_p s = w_b s ∧ r_p s = r_b s) index_tracker
  ∧ ∃ r, decompose index_tracker = inr r
         ∧ asset_allocation r = 0
         ∧ selection r = 0
         ∧ interaction r = 0
         ∧ total_difference r = 0.
Proof.
assert (Forall (λ s, w_p s = w_b s ∧ r_p s = r_b s) index_tracker) as Hsame.
{ repeat constructor. }
split; [discriminate|]. split; [exact Hsame|].
apply (decompose_no_difference index_tracker); [discriminate | exact Hsame].
Defined.

(** C8: on the empty sequence [decompose] does not fail; it returns the
    result whose six fields are all 0. *)
Theorem decompose_empty :
  decompose [] = inr {| portfolio_return := 0;
                        benchmark_return := 0;
                        asset_allocation := 0;
                        selection := 0;
                        interaction := 0;
                        total_difference := 0 |}.
Proof.
vm_compute. apply (f_equal inr), AttributionResult_eq; Qc_compute.
Qed.

(** The reference table in binary64, in the order of the notebook and in
    the reverse order. *)
Example Float64_reference :
  Float64.decompose Float64.df_brinson_rows
  = inr {| Float64.portfolio_return := 0.07400000000000001;
           Float64.benchmark_return := 0.059000000000000004;
           Float64.asset_allocation := 0.0049999999999999975;
           Float64.selection := 0.0070000000000000027;
           Float64.interaction := 0.0030000000000000001;
           Float64.total_difference := 0.015000000000000006 |}.
Proof. vm_compute. reflexivity. Qed.

Example Float64_reference_reversed :
  Float64.decompose (reverse Float64.df_brinson_rows)
  = inr {| Float64.portfolio_return := 0.074;
           Float64.benchmark_return := 0.059000000000000004;
           Float64.asset_allocation := 0.0049999999999999975;
           Float64.selection := 0.0070000000000000027;
           Float64.interaction := 0.0030000000000000001;
           Float64.total_difference := 0.014999999999999993 |}.
Proof. vm_compute. reflexivity. Qed.

(** C9, as stated: the result would not depend on the order of the
    segments.  In the binary64 arithmetic of the code it does: on the
    reference table read backwards the portfolio return is 0.074 instead of
    0.07400000000000001, and the total difference changes with it. *)
Lemma order_matters_in_binary64 :
  ¬ (Float64.df_brinson_rows ≡ₚ reverse Float64.df_brinson_rows →
     Float64.decompose Float64.df_brinson_rows
     = Float64.decompose (reverse Float64.df_brinson_rows)).
Proof.
intros H.
assert (Float64.df_brinson_rows ≡ₚ reverse Float64.df_brinson_rows) as Hp.
{ symmetry. apply reverse_Permutation. }
apply H in Hp.
apply (f_equal (λ o : Float64.exn + Float64.AttributionResult,
                  match o with
                  | inr r => PrimFloat.eqb (Float64.portfolio_return r) 0.074
                  | inl _ => false
                  end)) in Hp.
vm_compute in Hp. discriminate.
Qed.

(** C9, amended: in exact arithmetic, [decompose] returns the same result
    on a sequence of segments and on any permutation of it. *)
Theorem decompose_Permutation (segs segs' : list SegmentRecord) :
  segs ≡ₚ segs' → decompose segs = decompose segs'.
Proof.
intros Hp. rewrite !decompose_eq. f_equal. by apply spec_Permutation.
Qed.

Lemma decompose_Permutation_witness :
  df_brinson_rows ≡ₚ reverse df_brinson_rows
  ∧ decompose df_brinson_rows = decompose (reverse df_brinson_rows).
Proof.
assert (df_brinson_rows ≡ₚ reverse df_brinson_rows) as Hp.
{ symmetry. apply reverse_Permutation. }
split; [exact Hp|].
apply (decompose_Permutation df_brinson_rows (reverse df_brinson_rows) Hp).
Defined.

(** A table with benchmark weights in binary64. *)
Example Float64_stock_picker :
  Float64.decompose Float64.stock_picker
  = inr {| Float64.portfolio_return := 0.060000000000000005;
           Float64.benchmark_return := 0.055;
           Float64.asset_allocation := 0;
           Float64.selection := 0.0050000000000000027;
           Float64.interaction := 0;
           Float64.total_difference := 0.0050000000000000044 |}.
Proof. vm_compute. reflexivity. Qed.

(** C10, as stated: with w_p = w_b in every segment, selection would equal
    total_difference.  In the binary64 arithmetic of the code the two
    differ on [Float64.stock_picker]: 0.0050000000000000027 against
    0.0050000000000000044. *)
Lemma selection_differs_in_binary64 :
  ¬ (Float64.stock_picker ≠ [] →
     Forall (λ s, Float64.w_p s = Float64.w_b s) Float64.stock_picker →
     ∃ r, Float64.decompose Float64.stock_picker = inr r
          ∧ PrimFloat.eqb (Float64.asset_allocation r) 0 = true
          ∧ PrimFloat.eqb (Float64.interaction r) 0 = true
          ∧ PrimFloat.eqb (Float64.selection r) (Float64.total_difference r)
            = true).
Proof.
intros H. destruct H as (r & Hr & _ & _ & Hsel).
- discriminate.
- repeat constructor.
- vm_compute in Hr. injection Hr as <-.
  vm_compute in Hsel. discriminate.
Qed.

(** C10, amended: for every non-empty sequence of segments in which every
    segment has w_p = w_b, whatever the returns, [decompose] yields
    asset_allocation = 0 and interaction = 0, and in exact arithmetic
    selection = total_difference. *)
Theorem decompose_equal_weights (segs : list SegmentRecord) :
  segs ≠ [] →
  Forall (λ s, w_p s = w_b s) segs →
  ∃ r, decompose segs = inr r
       ∧ asset_allocation r = 0
       ∧ interaction r = 0
       ∧ selection r = total_difference r.
Proof.
intros _ Hw. exists (spec_decompose segs). split.
- apply decompose_eq.
- by apply spec_equal_weights.
Qed.

Lemma decompose_equal_weights_witness :
  stock_picker ≠ []
  ∧ Forall (λ s, w_p s = w_b s) stock_picker
  ∧ ∃ r, decompose stock_picker = inr r
         ∧ asset_allocation r = 0
         ∧ interaction r = 0
         ∧ selection r = total_difference r.
Proof.
assert (Forall (λ s, w_p s = w_b s) stock_picker) as Hw.
{ repeat constructor. }
split; [discriminate|]. split; [exact Hw|].
apply (decompose_equal_weights stock_picker); [discriminate | exact Hw].
Defined.

(** * Further properties of [brinson_decomposition] *)

Section AnyFrame.

Implicit Types (df : DataFrame) (a b c d : Series.t).

(** The code on a frame that has the four columns. *)
Lemma brinson_decomposition_columns df a b c d :
  columns df !! "w_p" = Some a → columns df !! "r_p" = Some b →
  columns df !! "w_b" = Some c → columns df !! "r_b" = Some d →
  brinson_decomposition df
  = inr {| portfolio_return := Series.sum (Series.mul a b);
           benchmark_return := Series.sum (Series.mul c d);
           asset_allocation := Series.sum (Series.mul (Series.sub a c) d);
           selection := Series.sum (Series.mul c (Series.sub b d));
           interaction :=
             Series.sum (Series.mul (Series.sub a c) (Series.sub b d));
           total_difference :=
             Series.sum (Series.mul a b) - Series.sum (Series.mul c d) |}.
Proof.
intros Ha Hb Hc Hd.
unfold brinson_decomposition, sum_, mul_, sub_, getitem.
rewrite Ha, Hb, Hc, Hd. reflexivity.
Qed.

Lemma brinson_decomposition_agree df df' :
  (∀ k, k ∈ required_columns → columns df !! k = columns df' !! k) →
  brinson_decomposition df = brinson_decomposition df'.
Proof.
intros H.
unfold brinson_decomposition, sum_, mul_, sub_, getitem, Series.t.
rewrite !(H "w_p"), !(H "r_p"), !(H "w_b"), !(H "r_b")
  by (unfold required_columns; set_solver).
done.
Qed.

(** Columns of one length are the projections of a list of rows. *)
Lemma rows_exist a b c d :
  length b = length a → length c = length a → length d = length a →
  ∃ segs, w_p <$> segs = a ∧ r_p <$> segs = b
          ∧ w_b <$> segs = c ∧ r_b <$> segs = d.
Proof.
revert b c d. induction a as [|x a IH]; intros b c d Hb Hc Hd.
- destruct b, c, d; try discriminate. by exists [].
- destruct b as [|y b], c as [|z c], d as [|t d]; try discriminate.
  simpl in *.
  destruct (IH b c d) as (segs & <- & <- & <- & <-); [lia..|].
  by exists (mkSegment "" x y z t :: segs).
Qed.

End AnyFrame.

Section MissingColumns.

Implicit Types (df : DataFrame) (a b c d : list Qc).

Lemma missing_w_p df :
  columns df !! "w_p" = None →
  brinson_decomposition df = inl (KeyError "w_p").
Proof.
intros Ha.
unfold brinson_decomposition, sum_, mul_, sub_, getitem, Series.t.
rewrite Ha. reflexivity.
Qed.

Lemma missing_r_p df a :
  columns df !! "w_p" = Some a → columns df !! "r_p" = None →
  brinson_decomposition df = inl (KeyError "r_p").
Proof.
intros Ha Hb.
unfold brinson_decomposition, sum_, mul_, sub_, getitem, Series.t.
rewrite Ha, Hb. reflexivity.
Qed.

Lemma missing_w_b df a b :
  columns df !! "w_p" = Some a → columns df !! "r_p" = Some b →
  columns df !! "w_b" = None →
  brinson_decomposition df = inl (KeyError "w_b").
Proof.
intros Ha Hb Hc.
unfold brinson_decomposition, sum_, mul_, sub_, getitem, Series.t.
rewrite Ha, Hb, Hc. reflexivity.
Qed.

Lemma missing_r_b df a b c :
  columns df !! "w_p" = Some a → columns df !! "r_p" = Some b →
  columns df !! "w_b" = Some c → columns df !! "r_b" = None →
  brinson_decomposition df = inl (KeyError "r_b").
Proof.
intros Ha Hb Hc Hd.
unfold brinson_decomposition, sum_, mul_, sub_, getitem, Series.t.
rewrite Ha, Hb, Hc, Hd. reflexivity.
Qed.

End MissingColumns.

(** X1: [brinson_decomposition] raises exactly when one of the columns
    w_p, r_p, w_b, r_b is missing, and the error is the [KeyError] of the
    first missing one in that order. *)
Theorem brinson_decomposition_KeyError (df : DataFrame) (e : exn) :
  brinson_decomposition df = inl e
  ↔ ∃ pre k post,
      required_columns = pre ++ k :: post
      ∧ Forall (λ c, is_Some (columns df !! c)) pre
      ∧ columns df !! k = None
      ∧ e = KeyError k.
Proof.
split.
- intros He.
  destruct (columns df !! "w_p") as [a|] eqn:Ha; cycle 1.
  { rewrite (missing_w_p df Ha) in He. injection He as <-.
    exists [], "w_p", ["r_p"; "w_b"; "r_b"]. by repeat split. }
  destruct (columns df !! "r_p") as [b|] eqn:Hb; cycle 1.
  { rewrite (missing_r_p df a Ha Hb) in He. injection He as <-.
    exists ["w_p"], "r_p", ["w_b"; "r_b"].
    repeat split; [|done]. repeat constructor. by rewrite Ha. }
  destruct (columns df !! "w_b") as [c|] eqn:Hc; cycle 1.
  { rewrite (missing_w_b df a b Ha Hb Hc) in He. injection He as <-.
    exists ["w_p"; "r_p"], "w_b", ["r_b"].
    repeat split; [|done]. repeat constructor; by rewrite ?Ha, ?Hb. }
  destruct (columns df !! "r_b") as [d|] eqn:Hd; cycle 1.
  { rewrite (missing_r_b df a b c Ha Hb Hc Hd) in He. injection He as <-.
    exists ["w_p"; "r_p"; "w_b"], "r_b", [].
    repeat split; [|done]. repeat constructor; by rewrite ?Ha, ?Hb, ?Hc. }
  rewrite (brinson_decomposition_columns df a b c d Ha Hb Hc Hd) in He.
  discriminate.
- intros (pre & k & post & Hsplit & Hpre & Hk & ->).
  unfold required_columns in Hsplit.
  destruct pre as [|k1 [|k2 [|k3 [|k4 pre]]]]; simplify_eq/=.
  + by apply missing_w_p.
  + apply Forall_cons_1 in Hpre as [[a Ha] _]. by eapply missing_r_p.
  + apply Forall_cons_1 in Hpre as [[a Ha] Hpre].
    apply Forall_cons_1 in Hpre as [[b Hb] _]. by eapply missing_w_b.
  + apply Forall_cons_1 in Hpre as [[a Ha] Hpre].
    apply Forall_cons_1 in Hpre as [[b Hb] Hpre].
    apply Forall_cons_1 in Hpre as [[c Hc] _]. by eapply missing_r_b.
  + by destruct pre.
Qed.

(** X2: [brinson_decomposition] returns a result exactly when the frame
    has the four columns w_p, r_p, w_b and r_b. *)
Theorem brinson_decomposition_returns_iff (df : DataFrame) :
  (∃ r, brinson_decomposition df = inr r)
  ↔ ∀ k, k ∈ required_columns → is_Some (columns df !! k).
Proof.
split.
- intros [r Hr] k Hk.
  destruct (columns df !! "w_p") as [a|] eqn:Ha;
    [|by rewrite (missing_w_p df Ha) in Hr].
  destruct (columns df !! "r_p") as [b|] eqn:Hb;
    [|by rewrite (missing_r_p df a Ha Hb) in Hr].
  destruct (columns df !! "w_b") as [c|] eqn:Hc;
    [|by rewrite (missing_w_b df a b Ha Hb Hc) in Hr].
  destruct (columns df !! "r_b") as [d|] eqn:Hd;
    [|by rewrite (missing_r_b df a b c Ha Hb Hc Hd) in Hr].
  unfold required_columns in Hk.
  repeat (apply elem_of_cons in Hk as [->|Hk]; [by eexists|]).
  by apply elem_of_nil in Hk.
- intros H.
  destruct (H "w_p") as [a Ha]; [unfold required_columns; set_solver|].
  destruct (H "r_p") as [b Hb]; [unfold required_columns; set_solver|].
  destruct (H "w_b") as [c Hc]; [unfold required_columns; set_solver|].
  destruct (H "r_b") as [d Hd]; [unfold required_columns; set_solver|].
  eexists. by apply (brinson_decomposition_columns df a b c d).
Qed.

Section FrameOfColumns.

Implicit Types (segs : list SegmentRecord).

Lemma frame_of_agree (df : DataFrame) segs :
  columns df !! "w_p" = Some (w_p <$> segs) →
  columns df !! "r_p" = Some (r_p <$> segs) →
  columns df !! "w_b" = Some (w_b <$> segs) →
  columns df !! "r_b" = Some (r_b <$> segs) →
  brinson_decomposition df = decompose segs.
Proof.
intros Ha Hb Hc Hd. apply brinson_decomposition_agree.
intros k Hk. unfold required_columns in Hk.
repeat (apply elem_of_cons in Hk as [->|Hk];
        [unfold frame_of; simpl; by simplify_map_eq|]).
by apply elem_of_nil in Hk.
Qed.

Lemma Sigma_app (f : SegmentRecord → Qc) segs1 segs2 :
  Sigma f (segs1 ++ segs2) = Sigma f segs1 + Sigma f segs2.
Proof.
induction segs1 as [|s segs1 IH]; simpl; [|rewrite IH]; ring.
Qed.

Lemma Sigma_scale (c : Qc) (f : SegmentRecord → Qc) segs :
  Sigma (λ s, c * f s) segs = c * Sigma f segs.
Proof. induction segs as [|s segs IH]; simpl; [|rewrite IH]; ring. Qed.


End FrameOfColumns.

(** X3: the result depends on the frame through the columns w_p, r_p, w_b
    and r_b only: two frames that agree on these four give the same
    outcome, whatever their index and their other columns. *)
Theorem brinson_decomposition_four_columns (df df' : DataFrame) :
  (∀ k, k ∈ required_columns → columns df !! k = columns df' !! k) →
  brinson_decomposition df = brinson_decomposition df'.
Proof. apply brinson_decomposition_agree. Qed.

Lemma brinson_decomposition_four_columns_witness :
  (∀ k, k ∈ required_columns →
        columns (frame_of df_brinson_rows) !! k
        = columns df_brinson_annotated !! k)
  ∧ brinson_decomposition (frame_of df_brinson_rows)
    = brinson_decomposition df_brinson_annotated.
Proof.
assert (∀ k, k ∈ required_columns →
             columns (frame_of df_brinson_rows) !! k
             = columns df_brinson_annotated !! k) as Hagree.
{ intros k Hk. unfold required_columns in Hk.
  repeat (apply elem_of_cons in Hk as [->|Hk]; [by vm_compute|]).
  by apply elem_of_nil in Hk. }
split; [exact Hagree|].
apply (brinson_decomposition_four_columns _ _ Hagree).
Defined.

(** X4: in exact arithmetic, on every frame of numbers that has the four
    columns, built from a table or not, [brinson_decomposition] returns a
    result whose three effects add up to the total difference. *)
Theorem brinson_decomposition_additivity (df : DataFrame) :
  well_formed df →
  (∀ k, k ∈ required_columns → is_Some (columns df !! k)) →
  ∃ r, brinson_decomposition df = inr r
       ∧ asset_allocation r + selection r + interaction r
         = total_difference r.
Proof.
intros Hwf H.
destruct (H "w_p") as [a Ha]; [unfold required_columns; set_solver|].
destruct (H "r_p") as [b Hb]; [unfold required_columns; set_solver|].
destruct (H "w_b") as [c Hc]; [unfold required_columns; set_solver|].
destruct (H "r_b") as [d Hd]; [unfold required_columns; set_solver|].
destruct (rows_exist a b c d) as (segs & <- & <- & <- & <-).
{ by rewrite (Hwf _ _ Ha), (Hwf _ _ Hb). }
{ by rewrite (Hwf _ _ Ha), (Hwf _ _ Hc). }
{ by rewrite (Hwf _ _ Ha), (Hwf _ _ Hd). }
exists (spec_decompose segs). split.
- rewrite (frame_of_agree df segs Ha Hb Hc Hd). apply decompose_eq.
- apply spec_additivity.
Qed.

Lemma brinson_decomposition_additivity_witness :
  well_formed df_brinson_annotated
  ∧ (∀ k, k ∈ required_columns →
          is_Some (columns df_brinson_annotated !! k))
  ∧ ∃ r, brinson_decomposition df_brinson_annotated = inr r
         ∧ asset_allocation r + selection r + interaction r
           = total_difference r.
Proof.
assert (well_formed df_brinson_annotated) as Hwf.
{ unfold well_formed, df_brinson_annotated, frame_of; simpl.
  repeat (apply map_Forall_insert_2; [reflexivity|]).
  apply map_Forall_empty. }
assert (∀ k, k ∈ required_columns →
             is_Some (columns df_brinson_annotated !! k)) as Hcols.
{ intros k Hk. unfold required_columns in Hk.
  repeat (apply elem_of_cons in Hk as [->|Hk];
          [vm_compute; by eexists|]).
  by apply elem_of_nil in Hk. }
split; [exact Hwf|]. split; [exact Hcols|].
apply (brinson_decomposition_additivity df_brinson_annotated Hwf Hcols).
Defined.

(** X5: in exact arithmetic, the attribution of two tables put one after
    the other is the sum, field by field, of their attributions; rows of a
    repeated segment are thus simply added. *)
Theorem decompose_app (segs1 segs2 : list SegmentRecord) :
  ∃ r1 r2 r,
    decompose segs1 = inr r1 ∧ decompose segs2 = inr r2
    ∧ decompose (segs1 ++ segs2) = inr r
    ∧ portfolio_return r = portfolio_return r1 + portfolio_return r2
    ∧ benchmark_return r = benchmark_return r1 + benchmark_return r2
    ∧ asset_allocation r = asset_allocation r1 + asset_allocation r2
    ∧ selection r = selection r1 + selection r2
    ∧ interaction r = interaction r1 + interaction r2
    ∧ total_difference r = total_difference r1 + total_difference r2.
Proof.
exists (spec_decompose segs1), (spec_decompose segs2),
       (spec_decompose (segs1 ++ segs2)).
rewrite !decompose_eq. simpl. rewrite !Sigma_app.
repeat split; ring.
Qed.

(** X6: in exact arithmetic, multiplying every return, of portfolio and
    benchmark alike, by a constant multiplies each of the six results by
    that constant. *)
Theorem decompose_scale_returns (c : Qc) (segs : list SegmentRecord) :
  ∃ r r',
    decompose segs = inr r
    ∧ decompose (scale_returns c <$> segs) = inr r'
    ∧ portfolio_return r' = c * portfolio_return r
    ∧ benchmark_return r' = c * benchmark_return r
    ∧ asset_allocation r' = c * asset_allocation r
    ∧ selection r' = c * selection r
    ∧ interaction r' = c * interaction r
    ∧ total_difference r' = c * total_difference r.
Proof.
exists (spec_decompose segs), (spec_decompose (scale_returns c <$> segs)).
rewrite !decompose_eq. simpl. rewrite !Sigma_fmap. unfold compose.
repeat split; [done..| | | | | |];
  rewrite <- ?Sigma_minus, <- Sigma_scale;
  apply Sigma_ext_all; intros s; simpl; ring.
Qed.

(** X7: in exact arithmetic, when the portfolio weights and the benchmark
    weights have the same total, taking every return in excess of a
    constant rate changes none of asset_allocation, selection, interaction
    and total_difference. *)
Theorem decompose_excess_returns (c : Qc) (segs : list SegmentRecord) :
  Series.sum (w_p <$> segs) = Series.sum (w_b <$> segs) →
  ∃ r r',
    decompose segs = inr r
    ∧ decompose (excess_returns c <$> segs) = inr r'
    ∧ asset_allocation r' = asset_allocation r
    ∧ selection r' = selection r
    ∧ interaction r' = interaction r
    ∧ total_difference r' = total_difference r.
Proof.
rewrite !sum_fmap. intros Hw.
exists (spec_decompose segs), (spec_decompose (excess_returns c <$> segs)).
rewrite !decompose_eq. simpl. rewrite !Sigma_fmap. unfold compose.
assert (c * (Sigma w_p segs - Sigma w_b segs) = 0) as Hzero.
{ rewrite Hw. ring. }
repeat split; [done..| | | |].
- transitivity (Sigma (λ s, (w_p s - w_b s) * r_b s) segs
                - c * (Sigma w_p segs - Sigma w_b segs)).
  + rewrite <- Sigma_minus, <- Sigma_scale, <- Sigma_minus.
    apply Sigma_ext_all; intros s; simpl; ring.
  + rewrite Hzero. ring.
- apply Sigma_ext_all; intros s; simpl; ring.
- apply Sigma_ext_all; intros s; simpl; ring.
- transitivity (Sigma (λ s, w_p s * r_p s) segs
                - Sigma (λ s, w_b s * r_b s) segs
                - c * (Sigma w_p segs - Sigma w_b segs)).
  + rewrite <- !Sigma_minus, <- Sigma_scale, <- !Sigma_minus.
    apply Sigma_ext_all; intros s; simpl; ring.
  + rewrite Hzero. ring.
Qed.

Lemma decompose_excess_returns_witness :
  Series.sum (w_p <$> df_brinson_rows) = Series.sum (w_b <$> df_brinson_rows)
  ∧ ∃ r r',
      decompose df_brinson_rows = inr r
      ∧ decompose (excess_returns (dec 3 100) <$> df_brinson_rows) = inr r'
      ∧ asset_allocation r' = asset_allocation r
      ∧ selection r' = selection r
      ∧ interaction r' = interaction r
      ∧ total_difference r' = total_difference r.
Proof.
assert (Series.sum (w_p <$> df_brinson_rows)
        = Series.sum (w_b <$> df_brinson_rows)) as Hw.
{ apply Qc_is_canon. vm_compute. reflexivity. }
split; [exact Hw|].
apply (decompose_excess_returns (dec 3 100) df_brinson_rows Hw).
Defined.


(** * The rolling regression *)

Section RollingFacts.

Local Open Scope nat_scope.

Context {L E : Type}.
Variable fit : list (L * Qc) → list (L * Qc) → E + (Qc * Qc).
Variable window : nat.

Implicit Types (ep em : list (L * Qc)) (idxs : list nat) (k : nat).
Implicit Types (res : list (Qc * Qc)) (bs alphas : list Qc).

Lemma for_each_inr ep em idxs bs alphas bs' alphas' :
  Rolling.for_each fit window ep em idxs (bs, alphas) = inr (bs', alphas')
  ↔ ∃ res,
      Forall2 (λ k ab, Rolling.model fit window ep em k = inr ab) idxs res
      ∧ bs' = bs ++ res.*2 ∧ alphas' = alphas ++ res.*1.
Proof.
revert bs alphas. induction idxs as [|k idxs IH]; intros bs alphas; simpl.
- split.
  + intros [= <- <-]. exists []. by rewrite !app_nil_r.
  + intros (res & Hres & -> & ->). apply Forall2_nil_inv_l in Hres as ->.
    by rewrite !app_nil_r.
- destruct (Rolling.model fit window ep em k) as [e|[const slope]] eqn:Hk.
  + split; [done|].
    intros (res & Hres & _). apply Forall2_cons_inv_l in Hres
      as (ab & res' & Hab & _ & _). congruence.
  + rewrite IH. split.
    * intros (res & Hres & -> & ->). exists ((const, slope) :: res).
      split; [by constructor|]. simpl. by rewrite <- !app_assoc.
    * intros (res & Hres & -> & ->). apply Forall2_cons_inv_l in Hres
        as (ab & res' & Hab & Hres' & ->).
      rewrite Hk in Hab. injection Hab as <-.
      exists res'. split; [done|]. simpl. by rewrite <- !app_assoc.
Qed.

Lemma for_each_inl ep em idxs bs alphas (e : E) :
  Rolling.for_each fit window ep em idxs (bs, alphas) = inl e
  ↔ ∃ pre k post,
      idxs = pre ++ k :: post
      ∧ Forall (λ j, ∃ ab, Rolling.model fit window ep em j = inr ab) pre
      ∧ Rolling.model fit window ep em k = inl e.
Proof.
revert bs alphas. induction idxs as [|k idxs IH]; intros bs alphas; simpl.
- split; [done|]. intros (pre & k & post & Hsplit & _). by destruct pre.
- destruct (Rolling.model fit window ep em k) as [e'|[const slope]] eqn:Hk.
  + split.
    * intros [= ->]. exists [], k, idxs. by repeat split.
    * intros ([|j pre] & k' & post & Hsplit & Hpre & Hk'); simplify_eq/=.
      { congruence. }
      apply Forall_cons_1 in Hpre as [[ab Hab] _]. congruence.
  + rewrite IH. split.
    * intros (pre & k' & post & -> & Hpre & Hk').
      exists (k :: pre), k', post. repeat split; [|done].
      constructor; [by eexists | done].
    * intros ([|j pre] & k' & post & Hsplit & Hpre & Hk'); simplify_eq/=.
      { congruence. }
      apply Forall_cons_1 in Hpre as [_ Hpre]. by exists pre, k', post.
Qed.

Lemma for_each_ext ep em ep' em' idxs (st : list Qc * list Qc) :
  Forall (λ k, Rolling.model fit window ep em k
               = Rolling.model fit window ep' em' k) idxs →
  Rolling.for_each fit window ep em idxs st
  = Rolling.for_each fit window ep' em' idxs st.
Proof.
intros H. revert st. induction H as [|k idxs Hk _ IH]; intros st; [done|].
simpl. unfold Rolling.body. destruct st as [bs alphas].
rewrite Hk. by destruct (Rolling.model fit window ep' em' k) as [|[? ?]].
Qed.

Lemma iloc_length ep k :
  k + window ≤ length ep →
  length (Rolling.iloc ep k (k + window)) = window.
Proof.
intros Hk. unfold Rolling.iloc.
rewrite length_take, length_drop. lia.
Qed.

Lemma iloc_app ep (row : L * Qc) k :
  k + window ≤ length ep →
  Rolling.iloc (ep ++ [row]) k (k + window)
  = Rolling.iloc ep k (k + window).
Proof.
intros Hk. unfold Rolling.iloc.
rewrite drop_app_le by lia. rewrite take_app_le; [done|].
rewrite length_drop. lia.
Qed.

End RollingFacts.

Section RollingCell.

Local Open Scope nat_scope.

Context {L E : Type}.
Variable fit : list (L * Qc) → list (L * Qc) → E + (Qc * Qc).
Variable window : nat.

Implicit Types (ep em a b : list (L * Qc)) (res : list (Qc * Qc)).

Lemma pd_Series_inr (data : list Qc) (idx : list L) :
  length data = length idx →
  Rolling.pd_Series (E:=E) data idx = inr (zip idx data).
Proof. intros H. unfold Rolling.pd_Series. by rewrite decide_True. Qed.

Lemma estimates_length ep em res :
  Forall2 (λ k ab, Rolling.model fit window ep em k = inr ab)
          (seq 0 (length ep - window)) res →
  length res = length (drop window ep.*1).
Proof.
intros Hres. apply Forall2_length in Hres.
rewrite length_seq in Hres.
by rewrite length_drop, length_fmap.
Qed.

(** The cell returns exactly when every window is regressed, and then
    pairs the dates from position [window] on with the estimates. *)
Lemma rolling_inr ep em a b :
  Rolling.rolling fit window ep em = inr (a, b)
  ↔ ∃ res,
      Forall2 (λ k ab, Rolling.model fit window ep em k = inr ab)
              (seq 0 (length ep - window)) res
      ∧ a = zip (drop window ep.*1) res.*1
      ∧ b = zip (drop window ep.*1) res.*2.
Proof.
unfold Rolling.rolling.
destruct (Rolling.for_each fit window ep em
            (seq 0 (length ep - window)) ([], []))
  as [e|[bs alphas]] eqn:Hloop.
- split; [done|]. intros (res & Hres & _).
  assert (Rolling.for_each fit window ep em
            (seq 0 (length ep - window)) ([], [])
          = inr ([] ++ res.*2, [] ++ res.*1)) as Hok.
  { apply for_each_inr. by exists res. }
  congruence.
- apply for_each_inr in Hloop as (res & Hres & -> & ->). simpl.
  pose proof (estimates_length ep em res Hres) as Hlen.
  rewrite !pd_Series_inr by (by rewrite length_fmap).
  split.
  + intros [= <- <-]. by exists res.
  + intros (res' & Hres' & -> & ->).
    assert (res' = res) as ->; [|done].
    clear Hlen. revert res' Hres'.
    induction Hres as [|k ab ks res Hk _ IH]; intros res' Hres'.
    * by apply Forall2_nil_inv_l in Hres'.
    * apply Forall2_cons_inv_l in Hres' as (ab' & res'' & Hk' & Hres'' & ->).
      f_equal; [congruence | by apply IH].
Qed.

Lemma rolling_inl_Raised ep em (e : E) :
  Rolling.rolling fit window ep em = inl (Rolling.Raised e)
  ↔ Rolling.for_each fit window ep em (seq 0 (length ep - window)) ([], [])
    = inl e.
Proof.
unfold Rolling.rolling.
destruct (Rolling.for_each fit window ep em
            (seq 0 (length ep - window)) ([], []))
  as [e'|[bs alphas]] eqn:Hloop.
- split; congruence.
- apply for_each_inr in Hloop as (res & Hres & -> & ->). simpl.
  pose proof (estimates_length ep em res Hres) as Hlen.
  rewrite !pd_Series_inr by (by rewrite length_fmap). done.
Qed.

Lemma rolling_not_ValueError ep em :
  Rolling.rolling fit window ep em ≠ inl Rolling.ValueError.
Proof.
unfold Rolling.rolling.
destruct (Rolling.for_each fit window ep em
            (seq 0 (length ep - window)) ([], []))
  as [e'|[bs alphas]] eqn:Hloop; [done|].
apply for_each_inr in Hloop as (res & Hres & -> & ->). simpl.
pose proof (estimates_length ep em res Hres) as Hlen.
rewrite !pd_Series_inr by (by rewrite length_fmap). done.
Qed.

End RollingCell.

Section RollingEstimates.

Local Open Scope nat_scope.

Context {L E : Type}.
Variable fit : list (L * Qc) → list (L * Qc) → E + (Qc * Qc).
Variable window : nat.

Implicit Types (ep em a b : list (L * Qc)) (res : list (Qc * Qc)).

Lemma estimates_exist ep em (idxs : list nat) :
  Forall (λ k, ∃ ab, Rolling.model fit window ep em k = inr ab) idxs →
  ∃ res,
    Forall2 (λ k ab, Rolling.model fit window ep em k = inr ab) idxs res.
Proof.
induction 1 as [|k idxs [ab Hk] _ [res IH]].
- by exists [].
- exists (ab :: res). by constructor.
Qed.

Lemma index_zip (idx : list L) (data : list Qc) :
  length data = length idx → (zip idx data).*1 = idx.
Proof. intros H. apply fst_zip. lia. Qed.

Lemma estimate_lookup ep em res k :
  Forall2 (λ k ab, Rolling.model fit window ep em k = inr ab)
          (seq 0 (length ep - window)) res →
  k < length ep - window →
  ∃ lbl v alpha beta,
    ep !! (window + k) = Some (lbl, v)
    ∧ Rolling.model fit window ep em k = inr (alpha, beta)
    ∧ zip (drop window ep.*1) res.*1 !! k = Some (lbl, alpha)
    ∧ zip (drop window ep.*1) res.*2 !! k = Some (lbl, beta).
Proof.
intros Hres Hk.
destruct (lookup_lt_is_Some_2 ep (window + k)) as [[lbl v] Hrow]; [lia|].
destruct (Forall2_lookup_l _ _ _ k k Hres) as ([alpha beta] & Hab & Hfit).
{ by apply lookup_seq_lt. }
exists lbl, v, alpha, beta. repeat split; [done..| |].
- apply lookup_zip_with_Some. exists lbl, alpha. split; [done|]. split.
  + by rewrite lookup_drop, list_lookup_fmap, Hrow.
  + by rewrite list_lookup_fmap, Hab.
- apply lookup_zip_with_Some. exists lbl, beta. split; [done|]. split.
  + by rewrite lookup_drop, list_lookup_fmap, Hrow.
  + by rewrite list_lookup_fmap, Hab.
Qed.

End RollingEstimates.

(** X9: when the regression succeeds on every window, the cell returns its
    two series; each has one estimate per observation from position
    [window] on, indexed by the dates of these observations (none at all
    when there are at most [window] observations). *)
Theorem rolling_returns {L E : Type}
    (fit : list (L * Qc) → list (L * Qc) → E + (Qc * Qc)) (window : nat)
    (excess_portfolio excess_market : list (L * Qc)) :
  (∀ k, (k < length excess_portfolio - window)%nat →
        ∃ ab, Rolling.model fit window excess_portfolio excess_market k
              = inr ab) →
  ∃ a b,
    Rolling.rolling fit window excess_portfolio excess_market = inr (a, b)
    ∧ a.*1 = drop window excess_portfolio.*1
    ∧ b.*1 = drop window excess_portfolio.*1
    ∧ length a = (length excess_portfolio - window)%nat
    ∧ length b = (length excess_portfolio - window)%nat.
Proof.
intros Hfit.
destruct (estimates_exist fit window excess_portfolio excess_market
            (seq 0 (length excess_portfolio - window))) as [res Hres].
{ apply Forall_forall. intros k Hk. apply Hfit.
  apply in_seq in Hk. lia. }
pose proof (estimates_length fit window _ _ res Hres) as Hlen.
exists (zip (drop window excess_portfolio.*1) res.*1),
       (zip (drop window excess_portfolio.*1) res.*2).
split; [apply rolling_inr; by exists res|].
rewrite !index_zip by (by rewrite length_fmap).
rewrite !length_zip, !length_fmap, Hlen, length_drop, length_fmap.
repeat split; lia.
Qed.

Lemma rolling_returns_witness :
  (∀ k, (k < length Rolling.portfolio_5d - 3)%nat →
        ∃ ab, Rolling.model Rolling.least_squares 3 Rolling.portfolio_5d
                Rolling.market_5d k = inr ab)
  ∧ ∃ a b,
      Rolling.rolling Rolling.least_squares 3 Rolling.portfolio_5d
        Rolling.market_5d = inr (a, b)
      ∧ a.*1 = drop 3 Rolling.portfolio_5d.*1
      ∧ b.*1 = drop 3 Rolling.portfolio_5d.*1
      ∧ length a = (length Rolling.portfolio_5d - 3)%nat
      ∧ length b = (length Rolling.portfolio_5d - 3)%nat.
Proof.
assert (∀ k, (k < length Rolling.portfolio_5d - 3)%nat →
             ∃ ab, Rolling.model Rolling.least_squares 3
                     Rolling.portfolio_5d Rolling.market_5d k = inr ab)
  as Hfit.
{ intros k Hk. simpl in Hk.
  destruct k as [|[|k]]; [vm_compute; by eexists ..| lia]. }
split; [exact Hfit|].
apply (rolling_returns Rolling.least_squares 3 Rolling.portfolio_5d
         Rolling.market_5d Hfit).
Defined.

(** X10: in the series the cell returns, the k-th estimate is the
    regression of the [window] observations k, ..., k+window-1 and carries
    the date of observation k+window, the first one after its window: an
    estimate uses no observation of its own date or later. *)
Theorem rolling_estimate {L E : Type}
    (fit : list (L * Qc) → list (L * Qc) → E + (Qc * Qc)) (window : nat)
    (excess_portfolio excess_market a b : list (L * Qc)) (k : nat) :
  Rolling.rolling fit window excess_portfolio excess_market = inr (a, b) →
  (k < length excess_portfolio - window)%nat →
  ∃ lbl v alpha beta,
    excess_portfolio !! (window + k)%nat = Some (lbl, v)
    ∧ length (Rolling.iloc excess_portfolio k (k + window)) = window
    ∧ fit (Rolling.iloc excess_portfolio k (k + window))
          (Rolling.iloc excess_market k (k + window)) = inr (alpha, beta)
    ∧ a !! k = Some (lbl, alpha)
    ∧ b !! k = Some (lbl, beta).
Proof.
intros Hroll Hk.
apply rolling_inr in Hroll as (res & Hres & -> & ->).
destruct (estimate_lookup fit window _ _ res k Hres Hk)
  as (lbl & v & alpha & beta & Hrow & Hfit & Ha & Hb).
exists lbl, v, alpha, beta. repeat split; [done| |done..].
apply iloc_length. lia.
Qed.

Lemma rolling_estimate_witness :
  ∃ a b,
    Rolling.rolling Rolling.least_squares 3 Rolling.portfolio_5d
      Rolling.market_5d = inr (a, b)
    ∧ (1 < length Rolling.portfolio_5d - 3)%nat
    ∧ ∃ lbl v alpha beta,
        Rolling.portfolio_5d !! (3 + 1)%nat = Some (lbl, v)
        ∧ length (Rolling.iloc Rolling.portfolio_5d 1 (1 + 3)) = 3%nat
        ∧ Rolling.least_squares
            (Rolling.iloc Rolling.portfolio_5d 1 (1 + 3))
            (Rolling.iloc Rolling.market_5d 1 (1 + 3)) = inr (alpha, beta)
        ∧ a !! 1%nat = Some (lbl, alpha)
        ∧ b !! 1%nat = Some (lbl, beta).
Proof.
destruct (Rolling.rolling Rolling.least_squares 3 Rolling.portfolio_5d
            Rolling.market_5d) as [f|[a b]] eqn:Hroll.
- vm_compute in Hroll. discriminate.
- exists a, b. split; [reflexivity|].
  assert (1 < length Rolling.portfolio_5d - 3)%nat as Hk by (simpl; lia).
  split; [exact Hk|].
  apply (rolling_estimate Rolling.least_squares 3 Rolling.portfolio_5d
           Rolling.market_5d a b 1 Hroll Hk).
Defined.

Section RollingFailure.

Local Open Scope nat_scope.

Lemma seq_split_at (n k : nat) :
  k < n → seq 0 n = seq 0 k ++ k :: seq (S k) (n - S k).
Proof.
intros Hk. replace n with (k + S (n - S k)) at 1 by lia.
by rewrite seq_app.
Qed.

Lemma seq_split_inv (n k : nat) (pre post : list nat) :
  seq 0 n = pre ++ k :: post → k < n ∧ pre = seq 0 k.
Proof.
intros Hsplit.
assert (seq 0 n !! length pre = Some k) as Hk.
{ rewrite Hsplit. by apply list_lookup_middle. }
apply lookup_seq in Hk as [-> Hlt]. simpl. split; [done|].
apply (f_equal (take (length pre))) in Hsplit.
rewrite take_app_length, take_seq in Hsplit.
rewrite Nat.min_l in Hsplit by lia. done.
Qed.

End RollingFailure.

(** X11: the cell fails only through the regression: it raises the
    exception of the earliest window on which the regression raises, and
    building the two series never raises a [ValueError]. *)
Theorem rolling_raises {L E : Type}
    (fit : list (L * Qc) → list (L * Qc) → E + (Qc * Qc)) (window : nat)
    (excess_portfolio excess_market : list (L * Qc))
    (f : Rolling.failure E) :
  Rolling.rolling fit window excess_portfolio excess_market = inl f
  ↔ ∃ e k,
      f = Rolling.Raised e
      ∧ (k < length excess_portfolio - window)%nat
      ∧ Rolling.model fit window excess_portfolio excess_market k = inl e
      ∧ ∀ j, (j < k)%nat →
             ∃ ab, Rolling.model fit window excess_portfolio excess_market j
                   = inr ab.
Proof.
destruct f as [e|].
- rewrite rolling_inl_Raised, for_each_inl. split.
  + intros (pre & k & post & Hsplit & Hpre & Hk).
    apply seq_split_inv in Hsplit as [Hlt ->].
    exists e, k. repeat split; [done..|].
    intros j Hj. rewrite Forall_forall in Hpre. apply Hpre.
    apply in_seq. lia.
  + intros (e' & k & [= <-] & Hlt & Hk & Hpre).
    exists (seq 0 k), k, (seq (S k) (length excess_portfolio - window - S k)).
    split; [by apply seq_split_at|]. split; [|done].
    apply Forall_forall. intros j Hj. apply Hpre.
    apply in_seq in Hj. lia.
- split.
  + intros H. by apply rolling_not_ValueError in H.
  + by intros (e & k & [=] & _).
Qed.

(** X12: the latest observation enters no regression: whatever the last
    value of the portfolio and the last row of the market, the cell gives
    the same outcome. *)
Theorem rolling_ignores_last_observation {L E : Type}
    (fit : list (L * Qc) → list (L * Qc) → E + (Qc * Qc)) (window : nat)
    (excess_portfolio excess_market : list (L * Qc))
    (lbl : L) (v v' : Qc) (row row' : L * Qc) :
  (length excess_portfolio ≤ length excess_market)%nat →
  Rolling.rolling fit window
    (excess_portfolio ++ [(lbl, v)]) (excess_market ++ [row])
  = Rolling.rolling fit window
      (excess_portfolio ++ [(lbl, v')]) (excess_market ++ [row']).
Proof.
intros Hlen. unfold Rolling.rolling.
rewrite !fmap_app, !length_app. simpl.
rewrite (for_each_ext fit window
           (excess_portfolio ++ [(lbl, v)]) (excess_market ++ [row])
           (excess_portfolio ++ [(lbl, v')]) (excess_market ++ [row']));
  [done|].
apply Forall_forall. intros k Hk. apply in_seq in Hk.
unfold Rolling.model. rewrite !iloc_app by lia. done.
Qed.

Lemma rolling_ignores_last_observation_witness :
  (length (take 4 Rolling.portfolio_5d)
   ≤ length (take 4 Rolling.market_5d))%nat
  ∧ Rolling.rolling Rolling.least_squares 3
      (take 4 Rolling.portfolio_5d ++ [("d5", dec 4 100)])
      (take 4 Rolling.market_5d ++ [("d5", dec 3 100)])
    = Rolling.rolling Rolling.least_squares 3
        (take 4 Rolling.portfolio_5d ++ [("d5", dec (-9) 100)])
        (take 4 Rolling.market_5d ++ [("d5", dec 7 100)]).
Proof.
assert (length (take 4 Rolling.portfolio_5d)
        ≤ length (take 4 Rolling.market_5d))%nat as Hlen.
{ simpl. lia. }
split; [exact Hlen|].
apply (rolling_ignores_last_observation Rolling.least_squares 3
         (take 4 Rolling.portfolio_5d) (take 4 Rolling.market_5d)
         "d5" (dec 4 100) (dec (-9) 100)
         ("d5", dec 3 100) ("d5", dec 7 100) Hlen).
Defined.

(** X13: when every segment earns in the portfolio what it earns in the
    benchmark (r_p = r_b), whatever the weights, the selection and
    interaction effects are 0, and in exact arithmetic the whole return gap
    is asset allocation. *)
Theorem decompose_equal_returns (segs : list SegmentRecord) :
  Forall (λ s, r_p s = r_b s) segs →
  ∃ r, decompose segs = inr r
       ∧ selection r = 0
       ∧ interaction r = 0
       ∧ asset_allocation r = total_difference r.
Proof.
intros Hr. exists (spec_decompose segs). split; [apply decompose_eq|].
simpl. repeat split.
- apply Sigma_null. eapply Forall_impl; [|exact Hr].
  intros s Hs; simpl in *. rewrite Hs. ring.
- apply Sigma_null. eapply Forall_impl; [|exact Hr].
  intros s Hs; simpl in *. rewrite Hs. ring.
- rewrite <- Sigma_minus. apply Sigma_ext.
  eapply Forall_impl; [|exact Hr].
  intros s Hs; simpl in *. rewrite Hs. ring.
Qed.

(** On [allocator] the gap is 0.007, all of it allocation. *)
Example decompose_allocator :
  decompose allocator
  = inr (mkResult (dec 72 1000) (dec 65 1000) (dec 7 1000) 0 0
                  (dec 7 1000)).
Proof.
vm_compute. apply (f_equal inr), AttributionResult_eq; Qc_compute.
Qed.

Lemma decompose_equal_returns_witness :
  Forall (λ s, r_p s = r_b s) allocator
  ∧ ∃ r, decompose allocator = inr r
         ∧ selection r = 0
         ∧ interaction r = 0
         ∧ asset_allocation r = total_difference r.
Proof.
assert (Forall (λ s, r_p s = r_b s) allocator) as Hr.
{ repeat constructor. }
split; [exact Hr|].
apply (decompose_equal_returns allocator Hr).
Defined.
